(** * lobsterMoneyBot: phrase matching, ranking and the owner commands

    A shallow embedding of [app/db.py] (the scoring cascade [_score], the
    iterator based [_is_subsequence], [search] with its filter, sort and
    slice, the owner table, [add_mapping] and the paginated listing), of
    [app/bot.py] ([_ensure_db], [_is_owner], [add_owner_cmd], [status_cmd],
    [remember_cmd], [inline_query]) and of [_parse_owner_ids] of
    [app/config.py].

    Python strings are sequences of Unicode code points: [str] is [list N].
    The interpreter's [str.lower] (a Unicode table, context sensitive for
    the Greek final sigma) and the builtin [int] parser are not part of the
    repository; the code that calls them is modelled in Sections that take
    them as Variables. *)

From Stdlib Require Import ZArith NArith Ascii String.
From stdpp Require Import base decidable option list sorting gmap.

Local Open Scope Z_scope.

(** ** The Python runtime primitives the program calls *)

Module Py.

Definition str := list N.

(** A source-code literal made of ASCII characters. *)
Definition lit (s : string) : str :=
  N_of_ascii <$> list_ascii_of_string s.

(** [str.isspace] on one code point: the characters [str.strip] removes
    when it is called without an argument. *)
Definition isspace (c : N) : bool :=
  ((9 <=? c) && (c <=? 13) || (28 <=? c) && (c <=? 32)
   || (c =? 133) || (c =? 160) || (c =? 5760)
   || (8192 <=? c) && (c <=? 8202)
   || (c =? 8232) || (c =? 8233) || (c =? 8239) || (c =? 8287)
   || (c =? 12288))%N.

Fixpoint lstrip (s : str) : str :=
  match s with
  | [] => []
  | c :: r => if isspace c then lstrip r else s
  end.

Definition rstrip (s : str) : str := reverse (lstrip (reverse s)).

(** [s.strip()] *)
Definition strip (s : str) : str := rstrip (lstrip s).

(** [not s] on a string *)
Definition is_empty (s : str) : bool :=
  match s with [] => true | _ :: _ => false end.

(** [a == b] on strings *)
Fixpoint str_eq (a b : str) : bool :=
  match a, b with
  | [], [] => true
  | c :: a', d :: b' => (c =? d)%N && str_eq a' b'
  | _, _ => false
  end.

(** [p.startswith(q)] *)
Fixpoint startswith (p q : str) {struct q} : bool :=
  match q, p with
  | [], _ => true
  | _ :: _, [] => false
  | c :: q', d :: p' => (c =? d)%N && startswith p' q'
  end.

(** [q in p] on strings: [q] occurs at some position of [p]. *)
Fixpoint str_in (q p : str) : bool :=
  startswith p q ||
  match p with
  | [] => false
  | _ :: p' => str_in q p'
  end.

(** [ch in it] on an iterator over a string: the iterator is advanced
    past the first element equal to [ch], or exhausted when there is
    none. The iterator state is the list of elements not yet consumed; the
    result carries the new state. *)
Fixpoint iter_contains (ch : N) (it : str) : bool * str :=
  match it with
  | [] => (false, [])
  | x :: rest => if (x =? ch)%N then (true, rest) else iter_contains ch rest
  end.

(** [a < b] on strings: lexicographic on code points, a proper prefix is
    smaller. *)
Fixpoint str_lt (a b : str) : bool :=
  match a, b with
  | _, [] => false
  | [], _ :: _ => true
  | c :: a', d :: b' =>
      if (c =? d)%N then str_lt a' b' else (c <? d)%N
  end.

(** [a < b] on the pairs [(int, str)]: the first components decide unless
    they are equal. *)
Definition tuple_lt (a b : Z * str) : bool :=
  if a.1 =? b.1 then
    if str_eq a.2 b.2 then false else str_lt a.2 b.2
  else a.1 <? b.1.

(** [l[:k]]: a negative [k] counts from the end. *)
Definition slice_to {A} (k : Z) (l : list A) : list A :=
  if 0 <=? k then take (Z.to_nat k) l
  else take (length l - Z.to_nat (- k))%nat l.

Section Sort.
Context {A K : Type} (key : A → K) (lt : K → K → bool).

Fixpoint insert_sorted (x : A) (l : list A) : list A :=
  match l with
  | [] => [x]
  | y :: l' =>
      if lt (key y) (key x) then y :: insert_sorted x l' else x :: l
  end.

(** A stable ascending sort that compares keys with [<] only. *)
Fixpoint sort_asc (l : list A) : list A :=
  match l with
  | [] => []
  | x :: l' => insert_sorted x (sort_asc l')
  end.

(** [l.sort(key=key, reverse=True)]: the list is reversed, sorted
    ascending by a stable sort, and reversed again, so that records
    with equal keys keep their original order. *)
Definition sort_reverse (l : list A) : list A :=
  reverse (sort_asc (reverse l)).
End Sort.

(** [str.lower] on strings of ASCII code points. *)
Definition ascii_lower_cp (c : N) : N :=
  if ((65 <=? c) && (c <=? 90))%N then (c + 32)%N else c.

Definition ascii_lower (s : str) : str := ascii_lower_cp <$> s.

(** [int] on plain decimal literals, an optional minus sign first. *)
Fixpoint digits (s : str) (acc : Z) : option Z :=
  match s with
  | [] => Some acc
  | c :: r =>
      if ((48 <=? c) && (c <=? 57))%N
      then digits r (10 * acc + Z.of_N (c - 48))
      else None
  end.

Definition dec_int (s : str) : option Z :=
  match s with
  | [] => None
  | c :: r =>
      if (c =? 45)%N then
        match r with [] => None | _ :: _ => Z.opp <$> digits r 0 end
      else digits s 0
  end.

End Py.

(** ** app/db.py *)

Module Database.
Import Py.

(** A row of the [owners] table, keyed by [user_id]. *)
Record Owner := mkOwner {
  username : option str;
  added_at : str
}.

(** A row of the [mappings] table, as the dictionary the code builds. *)
Record Row := mkRow {
  id : Z;
  phrase : str;
  file_id : str;
  owner_user_id : option Z;
  owner_username : option str;
  created_at : str
}.

Record State := mkState {
  owners : gmap Z Owner;
  mappings : list Row
}.

(** [INSERT OR IGNORE INTO owners]: an existing row is kept. *)
Definition add_owner (user_id : Z) (uname : option str) (now : str)
    (db : State) : State :=
  match owners db !! user_id with
  | Some _ => db
  | None =>
      mkState (<[user_id := mkOwner uname now]> (owners db)) (mappings db)
  end.


Definition is_owner (user_id : Z) (db : State) : bool :=
  match owners db !! user_id with
  | Some _ => true
  | None => false
  end.

Definition count_mappings (db : State) : Z :=
  Z.of_nat (length (mappings db)).

(** [all(ch in it for ch in needle)]: stops at the first character that
    the iterator no longer yields. *)
Fixpoint all_in (needle : str) (it : str) : bool :=
  match needle with
  | [] => true
  | ch :: needle' =>
      let (found, it') := iter_contains ch it in
      if found then all_in needle' it' else false
  end.

Definition _is_subsequence (needle haystack : str) : bool :=
  let it := haystack in
  all_in needle it.

Section Matcher.
Variable lower : str → str.

Definition _score (query phrase : str) : Z :=
  let q := strip (lower query) in
  let p := strip (lower phrase) in
  if is_empty q || is_empty p then 0
  else if str_eq q p then 100
  else if startswith p q then 80
  else if str_in q p then 60
  else if _is_subsequence q p then 40
  else 0.

(** The loop of [search] over the fetched rows. *)
Fixpoint collect (query : str) (rows : list Row) : list (Z * Row) :=
  match rows with
  | [] => []
  | item :: rows' =>
      let score := _score query (phrase item) in
      if 0 <? score then (score, item) :: collect query rows'
      else collect query rows'
  end.

Definition sort_key (t : Z * Row) : Z * str := (t.1, created_at t.2).

(** The rows are fetched without [ORDER BY]: the order of [mappings db]
    stands for the order in which the scan yields them. *)
Definition search (db : State) (query : str) (limit : Z) : list Row :=
  let rows := mappings db in
  let candidates := collect query rows in
  let candidates := sort_reverse sort_key tuple_lt candidates in
  snd <$> slice_to limit candidates.
End Matcher.

End Database.

(** ** app/bot.py *)

Module BotApp.
Import Py.

Record Config := mkConfig {
  bot_token : str;
  owner_ids : list Z;
  bot_username : str
}.

Record User := mkUser {
  user_id : Z;
  user_name : option str
}.

Record App := mkApp {
  _config : Config;
  _db : Database.State
}.

(** What a handler sends back. *)
Inductive Reply :=
| NoReply
| Usage
| InvalidUserId
| OwnerAdded (new_owner_id : Z)
| NoMappings
| Listing (page max_page total : Z) (limit offset : Z).

Inductive InlineResult :=
| NoMatches (query : str)
| CachedVideo (item : Database.Row).

(** [bool(user_id) and int(user_id) in set(self._config.owner_ids)] *)
Definition _is_owner (self : App) (uid : option Z) : bool :=
  match uid with
  | None => false
  | Some u =>
      if u =? 0 then false
      else bool_decide (u ∈ (list_to_set (owner_ids (_config self)) : gset Z))
  end.

Section Handlers.
(** The builtin [int] on a string; [None] stands for [ValueError]. *)
Variable py_int : str → option Z.
Variable lower : str → str.

Definition add_owner_cmd (self : App) (user : option User)
    (args : list str) (now : str) : App * Reply :=
  match user with
  | None => (self, NoReply)
  | Some u =>
      if negb (_is_owner self (Some (user_id u))) then (self, NoReply)
      else
        match args with
        | [] => (self, Usage)
        | a :: _ =>
            match py_int a with
            | None => (self, InvalidUserId)
            | Some new_owner_id =>
                (mkApp (_config self)
                   (Database.add_owner new_owner_id None now (_db self)),
                 OwnerAdded new_owner_id)
            end
        end
  end.

Definition status_cmd (self : App) (user : option User)
    (args : list str) : Reply :=
  match user with
  | None => NoReply
  | Some u =>
      if negb (_is_owner self (Some (user_id u))) then NoReply
      else
        let page_size := 50 in
        let page :=
          match args with
          | [] => 1
          | a :: _ =>
              match py_int a with
              | Some n => Z.max 1 n
              | None => 1
              end
          end in
        let total := Database.count_mappings (_db self) in
        if total =? 0 then NoMappings
        else
          let max_page := Z.max 1 ((total + page_size - 1) / page_size) in
          let page := Z.min page max_page in
          let offset := (page - 1) * page_size in
          Listing page max_page total page_size offset
  end.

(** [None] when the handler returns without answering the query. *)
Definition inline_query (self : App) (inline : option str)
    : option (list InlineResult) :=
  let query := match inline with Some q => q | None => [] end in
  let query := strip query in
  if is_empty query then None
  else
    let items := Database.search lower (_db self) query 10 in
    match items with
    | [] => Some [NoMatches query]
    | _ => Some (CachedVideo <$> items)
    end.
End Handlers.

End BotApp.

(** ** Specification-side notions *)

Module Spec.
Import Py.

(** [q] occurs inside [p]. *)
Definition substring (q p : str) : Prop := ∃ a b, p = a ++ q ++ b.

(** The tiers of the scoring rule, on normalized strings: the first
    tier that applies gives the score. *)
Inductive tier (q p : str) : Z → Prop :=
| tier_empty : q = [] ∨ p = [] → tier q p 0
| tier_exact : q ≠ [] → p ≠ [] → q = p → tier q p 100
| tier_prefix :
    q ≠ [] → p ≠ [] → q ≠ p → q `prefix_of` p → tier q p 80
| tier_substring :
    q ≠ [] → p ≠ [] → q ≠ p → ¬ q `prefix_of` p → substring q p →
    tier q p 60
| tier_subsequence :
    q ≠ [] → p ≠ [] → q ≠ p → ¬ q `prefix_of` p → ¬ substring q p →
    q `sublist_of` p → tier q p 40
| tier_none :
    q ≠ [] → p ≠ [] → q ≠ p → ¬ q `prefix_of` p → ¬ substring q p →
    ¬ q `sublist_of` p → tier q p 0.

(** Lexicographic order on code point sequences. *)
Inductive lex_lt : str → str → Prop :=
| lex_nil c t : lex_lt [] (c :: t)
| lex_head c d s t : (c < d)%N → lex_lt (c :: s) (d :: t)
| lex_tail c s t : lex_lt s t → lex_lt (c :: s) (c :: t).

Definition lex_le (a b : str) : Prop := a = b ∨ lex_lt a b.

Definition whitespace_only (s : str) : Prop :=
  Forall (λ c, isspace c = true) s.

(** [n] is [ceil(total / size)]. *)
Definition is_ceil_div (total size n : Z) : Prop :=
  size * (n - 1) < total ≤ size * n.

(** The lowercased, whitespace-trimmed form of a string. *)
Definition normalized (lower : str → str) (s : str) : str :=
  strip (lower s).

(** What is known of [str.lower]: on a string of ASCII code points it
    changes the letters A-Z only, and it leaves a string of whitespace
    characters one. *)
Definition ascii_agree (lower : str → str) : Prop :=
  ∀ s, Forall (λ c, (c < 128)%N) s → lower s = ascii_lower s.

Definition keeps_whitespace (lower : str → str) : Prop :=
  ∀ s, whitespace_only s → whitespace_only (lower s).

(** [r1] may stand before [r2] in a ranking: its score is not lower and,
    at equal scores, it was not created earlier. *)
Definition ranked (score : Database.Row → Z) (r1 r2 : Database.Row)
    : Prop :=
  score r2 ≤ score r1 ∧
  (score r1 = score r2 →
   lex_le (Database.created_at r2) (Database.created_at r1)).

End Spec.

(** ** Sample data: the scenarios of the specification *)

Module Samples.
Import Py Database BotApp.

Definition row (i : Z) (p : string) (t : string) : Row :=
  mkRow i (lit p) (lit "file") (Some 1) None (lit t).

Definition good_morning := row 1 "good morning" "2024-01-01T10:00:00".
Definition morning_routine := row 2 "morning routine" "2024-01-02T10:00:00".
Definition evening := row 3 "evening" "2024-01-03T10:00:00".
Definition morning_old := row 4 "Morning" "2024-01-01T09:00:00.500000".
Definition morning_new := row 5 "Morning" "2024-01-04T09:00:00".

Definition scenario_a : State :=
  mkState ∅ [good_morning; morning_routine; evening].

Definition scenario_d : State := mkState ∅ [morning_old; morning_new].

Definition config : Config := mkConfig (lit "token") [1] (lit "bot").

Definition app : App := mkApp config scenario_a.

(** A store of 120 mappings: three pages of the listing. *)
Definition big_app : App := mkApp config (mkState ∅ (replicate 120 evening)).

Definition owner : User := mkUser 1 None.

End Samples.

(** ** More of the runtime: [str.split], [str.join] *)

Module PyText.
Import Py.

(** [s.split(sep)] for a separator of one character: the pieces between
    the separators, the empty ones included. *)
Fixpoint split (sep : N) (s : str) : list str :=
  match s with
  | [] => [[]]
  | c :: r =>
      if (c =? sep)%N then [] :: split sep r
      else
        match split sep r with
        | piece :: pieces => (c :: piece) :: pieces
        | [] => [[c]]
        end
  end.

(** [sep.join(pieces)] *)
Fixpoint join (sep : str) (pieces : list str) : str :=
  match pieces with
  | [] => []
  | piece :: rest =>
      match rest with
      | [] => piece
      | _ :: _ => piece ++ sep ++ join sep rest
      end
  end.

Definition comma : N := 44.
Definition space : N := 32.

End PyText.

(** ** app/config.py *)

Module AppConfig.
Import Py PyText.

Section Parse.
Variable py_int : str → option Z.

(** The loop of [_parse_owner_ids] over the pieces. *)
Fixpoint parse_pieces (pieces : list str) : list Z :=
  match pieces with
  | [] => []
  | piece :: rest =>
      let piece := strip piece in
      if is_empty piece then parse_pieces rest
      else
        match py_int piece with
        | Some n => n :: parse_pieces rest
        | None => parse_pieces rest
        end
  end.

Definition _parse_owner_ids (raw : str) : list Z :=
  if is_empty raw then [] else parse_pieces (split comma raw).
End Parse.

End AppConfig.

(** ** app/db.py: inserting and listing mappings *)

Module Store.
Import Py Database.

(** The row id that [INTEGER PRIMARY KEY AUTOINCREMENT] assigns: one more
    than the largest id the table has held. Rows are never deleted, so that
    is the largest id in the table. *)
Definition next_rowid (db : State) : Z :=
  1 + foldr Z.max 0 (id <$> mappings db).

(** [add_mapping]: the new state and [cur.lastrowid]. The new row is the
    last one a scan of the table yields. *)
Definition add_mapping (phrase file_id : str) (owner_user_id : option Z)
    (owner_username : option str) (now : str) (db : State) : State * Z :=
  let rowid := next_rowid db in
  (mkState (owners db)
     (mappings db
      ++ [mkRow rowid phrase file_id owner_user_id owner_username now]),
   rowid).

(** [LIMIT limit OFFSET offset] on the rows in the order of the query: a
    negative limit is no limit, a negative offset is 0. *)
Definition sql_limit {A} (limit offset : Z) (l : list A) : list A :=
  let rest := drop (Z.to_nat offset) l in
  if limit <? 0 then rest else take (Z.to_nat limit) rest.

(** [ORDER BY created_at DESC]: the rows of the table, the later created
    first. The order among rows of equal [created_at] is the engine's. *)
Definition ordered_desc (rows sorted : list Row) : Prop :=
  sorted ≡ₚ rows ∧
  StronglySorted
    (λ a b, Spec.lex_le (created_at b) (created_at a)) sorted.

(** What [list_mappings_paginated(limit, offset)] may return. *)
Definition list_mappings_paginated (db : State) (limit offset : Z)
    (result : list Row) : Prop :=
  ∃ sorted, ordered_desc (mappings db) sorted ∧
            result = sql_limit limit offset sorted.

(** The ids of the table are pairwise distinct. *)
Definition distinct_ids (db : State) : Prop := NoDup (id <$> mappings db).

End Store.

(** ** app/bot.py: start-up and [/remember] *)

Module Handlers.
Import Py PyText Database BotApp.


(** The message a command replies to: [video] is the file id of its video,
    when it has one. *)
Record Message := mkMessage {
  video : option str
}.

Inductive RememberReply :=
| RememberNoReply
| RememberUsage
| RememberEmptyPhrase
| RememberNeedsReply
| RememberNoVideo
| Saved (phrase : str).

Definition remember_cmd (self : App) (user : option User)
    (args : list str) (reply_to_message : option Message) (now : str)
    : App * RememberReply :=
  match user with
  | None => (self, RememberNoReply)
  | Some u =>
      if negb (_is_owner self (Some (user_id u))) then (self, RememberNoReply)
      else
        match args with
        | [] => (self, RememberUsage)
        | _ :: _ =>
            let phrase := strip (join [space] args) in
            if is_empty phrase then (self, RememberEmptyPhrase)
            else
              match reply_to_message with
              | None => (self, RememberNeedsReply)
              | Some replied =>
                  match video replied with
                  | None => (self, RememberNoVideo)
                  | Some file_id =>
                      let db' :=
                        (Store.add_mapping phrase file_id
                           (Some (user_id u)) (user_name u) now
                           (_db self)).1 in
                      (mkApp (_config self) db', Saved phrase)
                  end
              end
        end
  end.

End Handlers.

(** ** Sample data for the store and the commands *)

Module Fixtures.
Import Py Database BotApp Samples.

Definition stamp : str := lit "2024-02-01T08:00:00".

Definition clip : Handlers.Message := Handlers.mkMessage (Some (lit "vid42")).



End Fixtures.

(** ** The runtime primitives meet their specifications *)

Module PyFacts.
Import Py Spec.

Lemma is_empty_true (s : str) : is_empty s = true ↔ s = [].
Proof. destruct s; simpl; split; congruence. Qed.

Lemma is_empty_false (s : str) : is_empty s = false ↔ s ≠ [].
Proof. destruct s; simpl; split; congruence. Qed.

Lemma str_eq_true (a b : str) : str_eq a b = true ↔ a = b.
Proof.
  revert b. induction a as [|c a IH]; intros [|d b]; simpl;
    try (split; congruence).
  rewrite andb_true_iff, N.eqb_eq, IH. split.
  - intros [-> ->]. reflexivity.
  - intros [= -> ->]. done.
Qed.

Lemma str_eq_false (a b : str) : str_eq a b = false ↔ a ≠ b.
Proof.
  rewrite <- str_eq_true. destruct (str_eq a b); split; congruence.
Qed.

Lemma startswith_prefix (p q : str) :
  startswith p q = true ↔ q `prefix_of` p.
Proof.
  revert p. induction q as [|c q IH]; intros p; simpl.
  - split; [intros _; apply prefix_nil | done].
  - destruct p as [|d p].
    + split; [done | intros H; by apply prefix_nil_not in H].
    + rewrite andb_true_iff, N.eqb_eq, IH. split.
      * intros [-> H]. by apply prefix_cons.
      * intros H. split;
          [by apply prefix_cons_inv_1 in H | by apply prefix_cons_inv_2 in H].
Qed.

Lemma str_in_substring (q p : str) : str_in q p = true ↔ substring q p.
Proof.
  induction p as [|d p IH]; simpl.
  - rewrite orb_false_r, startswith_prefix. split.
    + intros [k ->]. exists [], k. done.
    + intros (a & b & H). symmetry in H.
      apply app_eq_nil in H as [-> H]. apply app_eq_nil in H as [-> _].
      done.
  - rewrite orb_true_iff, startswith_prefix, IH. split.
    + intros [[k ->] | (a & b & ->)].
      * exists [], k. done.
      * exists (d :: a), b. done.
    + intros ([|x a] & b & H); simpl in H.
      * left. exists b. done.
      * right. injection H as -> ->. exists a, b. done.
Qed.

(** The iterator scan decides the subsequence relation. *)
Lemma all_in_sublist (needle it : str) :
  Database.all_in needle it = true ↔ needle `sublist_of` it.
Proof.
  revert it. induction needle as [|ch needle IH]; intros it.
  - simpl. split; [intros _; apply sublist_nil_l | done].
  - induction it as [|x rest IHit].
    + simpl. split; [done | intros H; by apply sublist_nil_r in H].
    + cbn [Database.all_in iter_contains].
      destruct (N.eqb_spec x ch) as [->|Hne].
      * rewrite IH, sublist_cons_r. split.
        -- intros H. right. eauto.
        -- intros [H | (l' & [= <-] & H)]; [|done].
           by apply sublist_cons_l in H as (k1 & k2 & -> & H);
             apply sublist_inserts_l, sublist_cons.
      * cbn [Database.all_in] in IHit. rewrite IHit, (sublist_cons_r x _ rest).
        split; [by left|].
        intros [H | (l' & [= <- <-] & _)]; done.
Qed.

Lemma _is_subsequence_sublist (needle haystack : str) :
  Database._is_subsequence needle haystack = true
  ↔ needle `sublist_of` haystack.
Proof. apply all_in_sublist. Qed.

Lemma str_lt_lex (a b : str) : str_lt a b = true ↔ lex_lt a b.
Proof.
  revert b. induction a as [|c a IH]; intros [|d b]; simpl.
  - split; [done | inversion 1].
  - split; [intros _; constructor | done].
  - split; [done | inversion 1].
  - destruct (N.eqb_spec c d) as [->|Hne].
    + rewrite IH. split; [by constructor|].
      inversion 1; subst; [lia | done].
    + rewrite N.ltb_lt. split; [by constructor|].
      inversion 1; subst; done.
Qed.

End PyFacts.

(** ** The scoring cascade *)

Module ScoreFacts.
Import Py Spec PyFacts Database.

Section Score.
Variable lower : str → str.

Local Abbreviation norm := (normalized lower).
Local Abbreviation score := (_score lower).

(** The equation of [_score] on the normalized strings, one boolean test
    per line of the cascade. *)
Lemma score_unfold (q p : str) :
  score q p =
    if is_empty (norm q) || is_empty (norm p) then 0
    else if str_eq (norm q) (norm p) then 100
    else if startswith (norm p) (norm q) then 80
    else if str_in (norm q) (norm p) then 60
    else if _is_subsequence (norm q) (norm p) then 40
    else 0.
Proof. reflexivity. Qed.

Lemma score_values (q p : str) : score q p ∈ [0; 40; 60; 80; 100].
Proof.
  rewrite score_unfold.
  repeat match goal with |- context [if ?b then _ else _] => destruct b end;
    set_solver.
Qed.

Lemma score_tier (q p : str) : tier (norm q) (norm p) (score q p).
Proof.
  rewrite score_unfold.
  destruct (is_empty (norm q)) eqn:Eq; simpl.
  { apply tier_empty. left. by apply is_empty_true. }
  destruct (is_empty (norm p)) eqn:Ep; simpl.
  { apply tier_empty. right. by apply is_empty_true. }
  apply is_empty_false in Eq, Ep.
  destruct (str_eq (norm q) (norm p)) eqn:Eeq.
  { apply tier_exact; [done..|]. by apply str_eq_true. }
  apply str_eq_false in Eeq.
  destruct (startswith (norm p) (norm q)) eqn:Epre.
  { apply tier_prefix; [done..|]. by apply startswith_prefix. }
  assert (¬ norm q `prefix_of` norm p) as Hpre.
  { rewrite <- startswith_prefix. congruence. }
  destruct (str_in (norm q) (norm p)) eqn:Ein.
  { apply tier_substring; [done..|]. by apply str_in_substring. }
  assert (¬ substring (norm q) (norm p)) as Hin.
  { rewrite <- str_in_substring. congruence. }
  destruct (_is_subsequence (norm q) (norm p)) eqn:Esub.
  { apply tier_subsequence; [done..|]. by apply _is_subsequence_sublist. }
  apply tier_none; [done..|].
  rewrite <- _is_subsequence_sublist. congruence.
Qed.

(** The tiers leave no choice: a pair of strings has one score. *)
Lemma tier_functional (q p : str) (a b : Z) :
  tier q p a → tier q p b → a = b.
Proof.
  destruct 1; destruct 1; try reflexivity;
    repeat match goal with H : _ ∨ _ |- _ => destruct H end;
    done.
Qed.

Lemma score_100_iff (q p : str) :
  score q p = 100 ↔ norm q = norm p ∧ norm q ≠ [].
Proof.
  split.
  - intros H. pose proof (score_tier q p) as Ht. rewrite H in Ht.
    inversion Ht; done.
  - intros [Heq Hne].
    apply (tier_functional (norm q) (norm p)); [apply score_tier|].
    apply tier_exact; [done | by rewrite <- Heq | done].
Qed.

End Score.

End ScoreFacts.

(** ** [list.sort(key=..., reverse=True)] and slicing *)

Module SortFacts.
Import Py.

Section Insertion.
Context {A K : Type} (key : A → K) (lt : K → K → bool).

(** [x] may stand before [y] in ascending order: [key y < key x] fails. *)
Local Abbreviation asc := (λ x y : A, lt (key y) (key x) = false).
Local Abbreviation desc := (λ x y : A, lt (key x) (key y) = false).

Hypothesis lt_asym : ∀ a b, lt a b = true → lt b a = false.
Hypothesis ge_trans :
  ∀ a b c, lt b a = false → lt c b = false → lt c a = false.

Lemma insert_sorted_perm (x : A) (l : list A) :
  insert_sorted key lt x l ≡ₚ x :: l.
Proof.
  induction l as [|y l IH]; simpl; [done|].
  destruct (lt (key y) (key x)); [|done].
  rewrite IH. apply Permutation_swap.
Qed.

Lemma sort_asc_perm (l : list A) : sort_asc key lt l ≡ₚ l.
Proof.
  induction l as [|x l IH]; simpl; [done|].
  by rewrite insert_sorted_perm, IH.
Qed.

Lemma insert_sorted_sorted (x : A) (l : list A) :
  StronglySorted asc l → StronglySorted asc (insert_sorted key lt x l).
Proof.
  induction 1 as [|y l Hs IH Hall]; simpl.
  - repeat constructor.
  - destruct (lt (key y) (key x)) eqn:E.
    + constructor; [done|].
      rewrite insert_sorted_perm. constructor; [|done].
      by apply lt_asym.
    + constructor; [by constructor|].
      constructor; [done|].
      eapply Forall_impl; [exact Hall|].
      intros z Hz. simpl in *. by eapply ge_trans.
Qed.

Lemma sort_asc_sorted (l : list A) : StronglySorted asc (sort_asc key lt l).
Proof.
  induction l as [|x l IH]; simpl; [constructor|].
  by apply insert_sorted_sorted.
Qed.

Lemma sort_reverse_perm (l : list A) : sort_reverse key lt l ≡ₚ l.
Proof.
  unfold sort_reverse.
  by rewrite reverse_Permutation, sort_asc_perm, reverse_Permutation.
Qed.

(** After the sort no record stands before one with a greater key. *)
Lemma sort_reverse_sorted (l : list A) :
  StronglySorted desc (sort_reverse key lt l).
Proof.
  unfold sort_reverse.
  generalize (sort_asc_sorted (reverse l)).
  generalize (sort_asc key lt (reverse l)). clear l.
  induction 1 as [|y l Hs IH Hall]; [constructor|].
  rewrite reverse_cons. apply StronglySorted_app_2; [|done|repeat constructor].
  intros x1 x2 H1 H2. apply list_elem_of_singleton in H2 as ->.
  rewrite elem_of_reverse in H1.
  rewrite Forall_forall in Hall. by apply Hall.
Qed.
End Insertion.

Section Slice.
Context {A : Type}.

Lemma slice_to_sublist (k : Z) (l : list A) : slice_to k l `sublist_of` l.
Proof. unfold slice_to. destruct (0 <=? k); apply sublist_take. Qed.

Lemma slice_to_length (k : Z) (l : list A) :
  0 ≤ k → Z.of_nat (length (slice_to k l)) ≤ k.
Proof.
  intros Hk. unfold slice_to.
  destruct (Z.leb_spec 0 k); [|lia]. rewrite length_take. lia.
Qed.

Lemma slice_to_succ (k : Z) (l : list A) :
  0 ≤ k → slice_to k l `prefix_of` slice_to (k + 1) l.
Proof.
  intros Hk. unfold slice_to.
  destruct (Z.leb_spec 0 k); [|lia].
  destruct (Z.leb_spec 0 (k + 1)); [|lia].
  replace (Z.to_nat (k + 1)) with (Z.to_nat k + 1)%nat by lia.
  rewrite <- take_take_drop. by apply prefix_app_r.
Qed.

Lemma slice_to_all (k : Z) (l : list A) :
  Z.of_nat (length l) ≤ k → slice_to k l = l.
Proof.
  intros Hk. unfold slice_to.
  destruct (Z.leb_spec 0 k); [|lia]. apply take_ge. lia.
Qed.

Lemma StronglySorted_sublist (R : relation A) (l1 l2 : list A) :
  l1 `sublist_of` l2 → StronglySorted R l2 → StronglySorted R l1.
Proof.
  induction 1 as [|x l1 l2 Hsub IH|x l1 l2 Hsub IH]; intros Hs.
  - constructor.
  - apply StronglySorted_cons in Hs as [Hall Hs].
    constructor; [by apply IH|].
    rewrite Forall_forall in Hall. apply Forall_forall. intros y Hy.
    apply Hall. by eapply elem_of_sublist.
  - apply StronglySorted_cons in Hs as [_ Hs]. by apply IH.
Qed.
End Slice.

End SortFacts.

(** ** The order of the sort keys [(score, created_at)] *)

Module KeyFacts.
Import Py Spec PyFacts.

Lemma lex_lt_irrefl (a : str) : ¬ lex_lt a a.
Proof. induction a as [|c a IH]; inversion 1; subst; [lia | done]. Qed.

Lemma lex_lt_trans (a b c : str) : lex_lt a b → lex_lt b c → lex_lt a c.
Proof.
  intros Hab. revert c.
  induction Hab as [x t|x y s t Hxy|x s t Hst IH]; intros c Hbc;
    inversion Hbc; subst.
  - constructor.
  - constructor.
  - apply lex_head. lia.
  - by apply lex_head.
  - by apply lex_head.
  - apply lex_tail. by apply IH.
Qed.

Lemma lex_lt_total (a b : str) : lex_lt a b ∨ a = b ∨ lex_lt b a.
Proof.
  revert b. induction a as [|c a IH]; intros [|d b].
  - auto.
  - left. constructor.
  - right. right. constructor.
  - destruct (N.lt_trichotomy c d) as [H|[->|H]].
    + left. by constructor.
    + destruct (IH b) as [H|[->|H]]; [left|auto|right; right];
        by constructor.
    + right. right. by constructor.
Qed.

Lemma not_lex_lt (a b : str) : ¬ lex_lt b a ↔ lex_le a b.
Proof.
  unfold lex_le. split.
  - intros H. destruct (lex_lt_total a b) as [?|[?|?]]; auto. done.
  - intros [->|H] H'; [by eapply lex_lt_irrefl|].
    eapply lex_lt_irrefl, lex_lt_trans; eauto.
Qed.

Lemma lex_le_trans (a b c : str) : lex_le a b → lex_le b c → lex_le a c.
Proof.
  intros [->|Hab] [->|Hbc]; unfold lex_le; auto.
  right. by eapply lex_lt_trans.
Qed.

Lemma tuple_lt_true (a b : Z * str) :
  tuple_lt a b = true ↔ a.1 < b.1 ∨ (a.1 = b.1 ∧ lex_lt a.2 b.2).
Proof.
  unfold tuple_lt. destruct (Z.eqb_spec a.1 b.1) as [He|Hne].
  - destruct (str_eq a.2 b.2) eqn:E.
    + apply str_eq_true in E. split; [done|].
      intros [?|[_ H]]; [lia|]. rewrite E in H.
      by apply lex_lt_irrefl in H.
    + rewrite str_lt_lex. split; [auto|]. intros [?|[_ ?]]; [lia|done].
  - rewrite Z.ltb_lt. split; [auto|]. intros [?|[? _]]; done.
Qed.

(** [b < a] fails exactly when [a] is at most [b] in the lexicographic
    order of the pairs. *)
Lemma tuple_lt_false (a b : Z * str) :
  tuple_lt b a = false ↔ a.1 < b.1 ∨ (a.1 = b.1 ∧ lex_le a.2 b.2).
Proof.
  rewrite <- not_true_iff_false, tuple_lt_true, <- not_lex_lt. split.
  - intros H. destruct (Z.lt_trichotomy a.1 b.1) as [?|[He|?]].
    + by left.
    + right. split; [done|]. intros Hlt. apply H. right. by rewrite He.
    + destruct H. by left.
  - intros [?|[He Hle]] [?|[? ?]]; try lia. done.
Qed.

Lemma tuple_lt_asym (a b : Z * str) :
  tuple_lt a b = true → tuple_lt b a = false.
Proof.
  rewrite tuple_lt_true, tuple_lt_false. intros [?|[? ?]]; [by left|].
  right. split; [done|]. by right.
Qed.

Lemma tuple_ge_trans (a b c : Z * str) :
  tuple_lt b a = false → tuple_lt c b = false → tuple_lt c a = false.
Proof.
  rewrite !tuple_lt_false.
  intros [?|[? ?]] [?|[? ?]]; try (left; lia).
  right. split; [lia|]. by eapply lex_le_trans.
Qed.

End KeyFacts.

(** ** [Database.search]: filter, rank, truncate *)

Module SearchFacts.
Import Py Spec PyFacts SortFacts KeyFacts Database.

Lemma lstrip_whitespace (s : str) : whitespace_only s → lstrip s = [].
Proof. induction 1 as [|c s Hc _ IH]; simpl; [done|]. by rewrite Hc. Qed.

Lemma strip_whitespace (s : str) : whitespace_only s → strip s = [].
Proof. intros H. unfold strip. by rewrite lstrip_whitespace. Qed.

Lemma slice_to_nil {A} (k : Z) : slice_to k (@nil A) = [].
Proof. unfold slice_to. by destruct (0 <=? k); rewrite take_nil. Qed.

Lemma StronglySorted_fmap_on {A B} (f : A → B) (P : A → Prop)
    (R1 : relation A) (R2 : relation B) (l : list A) :
  (∀ x y, P x → P y → R1 x y → R2 (f x) (f y)) →
  Forall P l → StronglySorted R1 l → StronglySorted R2 (f <$> l).
Proof.
  intros HR HP. induction 1 as [|x l Hs IH Hall]; csimpl; [constructor|].
  apply Forall_cons in HP as [Hx HP].
  constructor; [by apply IH|].
  rewrite Forall_fmap. rewrite Forall_forall in Hall, HP.
  apply Forall_forall. intros y Hy. simpl. apply HR; auto.
Qed.

Section Search.
Variable lower : str → str.

Local Abbreviation score := (_score lower).

Lemma collect_elem (q : str) (rows : list Row) (t : Z * Row) :
  t ∈ collect lower q rows
  ↔ t.2 ∈ rows ∧ t.1 = score q (phrase t.2) ∧ 0 < t.1.
Proof.
  induction rows as [|item rows IH]; simpl.
  - split; [by intros ?%not_elem_of_nil|].
    by intros [?%not_elem_of_nil _].
  - destruct (Z.ltb_spec 0 (score q (phrase item))) as [Hpos|Hzero].
    + rewrite !elem_of_cons, IH. split.
      * intros [->|(? & ? & ?)]; simpl; auto.
      * intros ([Hi|?] & Hs & ?); [left|right; done].
        destruct t as [s r]; simpl in *. by rewrite Hs, Hi.
    + rewrite elem_of_cons, IH. split; [intros (? & ? & ?); auto|].
      intros ([->|?] & ? & ?); [lia|done].
Qed.

(** The candidates after the sort, before the slice. *)
Local Abbreviation sorted q db :=
  (sort_reverse sort_key tuple_lt (collect lower q (mappings db))).

Lemma sorted_perm (q : str) (db : State) :
  sorted q db ≡ₚ collect lower q (mappings db).
Proof. apply sort_reverse_perm. Qed.

Lemma search_elem (db : State) (q : str) (limit : Z) (r : Row) :
  r ∈ search lower db q limit →
  r ∈ mappings db ∧ 0 < score q (phrase r).
Proof.
  unfold search. intros ([s r'] & -> & Ht)%list_elem_of_fmap.
  eapply elem_of_sublist in Ht; [|apply slice_to_sublist].
  rewrite sorted_perm in Ht. apply collect_elem in Ht as (? & ? & ?).
  simpl in *. split; [done|lia].
Qed.

Lemma search_sorted (db : State) (q : str) (limit : Z) :
  StronglySorted (ranked (λ r, score q (phrase r)))
    (search lower db q limit).
Proof.
  unfold search.
  apply (StronglySorted_fmap_on snd
           (λ t, t.1 = score q (phrase t.2))
           (λ x y, tuple_lt (sort_key x) (sort_key y) = false)).
  - intros [s1 r1] [s2 r2] H1 H2 Hge. simpl in *. subst.
    apply tuple_lt_false in Hge. unfold ranked, sort_key in *.
    simpl in *. split; [lia|]. intros Heq.
    destruct Hge as [?|[_ ?]]; [lia|done].
  - apply Forall_forall. intros t Ht.
    eapply elem_of_sublist in Ht; [|apply slice_to_sublist].
    rewrite sorted_perm in Ht.
    by apply collect_elem in Ht as (_ & ? & _).
  - eapply StronglySorted_sublist; [apply slice_to_sublist|].
    apply sort_reverse_sorted; [apply tuple_lt_asym|].
    intros a b c. apply tuple_ge_trans.
Qed.

Lemma search_length (db : State) (q : str) (k : Z) :
  0 ≤ k → Z.of_nat (length (search lower db q k)) ≤ k.
Proof.
  intros Hk. unfold search. rewrite length_fmap.
  by apply slice_to_length.
Qed.

Lemma search_prefix (db : State) (q : str) (k : Z) :
  0 ≤ k → search lower db q k `prefix_of` search lower db q (k + 1).
Proof.
  intros Hk. unfold search.
  destruct (slice_to_succ k (sorted q db) Hk) as [rest ->].
  rewrite fmap_app. by apply prefix_app_r.
Qed.

Lemma score_whitespace (q p : str) :
  keeps_whitespace lower → whitespace_only q → score q p = 0.
Proof.
  intros Hl Hq. unfold _score.
  by rewrite (strip_whitespace (lower q)) by by apply Hl.
Qed.

Lemma collect_whitespace (q : str) (rows : list Row) :
  keeps_whitespace lower → whitespace_only q → collect lower q rows = [].
Proof.
  intros Hl Hq. induction rows as [|item rows IH]; simpl; [done|].
  by rewrite score_whitespace.
Qed.

Lemma search_whitespace (db : State) (q : str) (limit : Z) :
  keeps_whitespace lower → whitespace_only q →
  search lower db q limit = [].
Proof.
  intros Hl Hq. unfold search. rewrite collect_whitespace by done.
  change (sort_reverse sort_key tuple_lt []) with (@nil (Z * Row)).
  by rewrite slice_to_nil.
Qed.

Lemma collect_length (q : str) (rows : list Row) :
  (length (collect lower q rows) ≤ length rows)%nat.
Proof.
  induction rows as [|item rows IH]; simpl; [done|].
  destruct (0 <? _); simpl; lia.
Qed.

(** Without truncation the result holds every candidate that passed the
    filter. *)
Lemma search_all (db : State) (q : str) (limit : Z) (s : Z) (r : Row) :
  count_mappings db ≤ limit →
  (s, r) ∈ collect lower q (mappings db) → r ∈ search lower db q limit.
Proof.
  intros Hl Hin. unfold search, count_mappings in *.
  rewrite slice_to_all.
  - apply list_elem_of_fmap. exists (s, r). split; [done|].
    by rewrite sorted_perm.
  - rewrite sorted_perm. pose proof (collect_length q (mappings db)). lia.
Qed.

Lemma sorted_lookup {A} (R : relation A) (l : list A) (i j : nat)
    (x y : A) :
  StronglySorted R l → (i < j)%nat →
  l !! i = Some x → l !! j = Some y → R x y.
Proof.
  intros Hs. revert i j. induction Hs as [|z l Hs IH Hall];
    intros i j Hij Hi Hj; [done|].
  destruct j as [|j]; [lia|]. simpl in Hj. destruct i as [|i].
  - injection Hi as ->. rewrite Forall_forall in Hall.
    apply Hall. by eapply list_elem_of_lookup_2.
  - simpl in Hi. apply (IH i j); [lia|done..].
Qed.

Lemma collect_own_phrase (db : State) (r : Row) :
  r ∈ mappings db → normalized lower (phrase r) ≠ [] →
  (100, r) ∈ collect lower (phrase r) (mappings db).
Proof.
  intros Hr Hne. apply collect_elem. simpl.
  assert (score (phrase r) (phrase r) = 100) as ->.
  { by apply ScoreFacts.score_100_iff. }
  done.
Qed.

End Search.

End SearchFacts.

(** ** The handlers of [BotApp] *)

Module BotFacts.
Import Py Spec PyFacts SearchFacts BotApp.

Lemma isspace_range (c : N) : isspace c = true → (c ≤ 32 ∨ 133 ≤ c)%N.
Proof.
  unfold isspace.
  rewrite !orb_true_iff, !andb_true_iff, !N.leb_le, !N.eqb_eq. lia.
Qed.

Lemma ascii_lower_cp_space (c : N) :
  isspace c = true → ascii_lower_cp c = c.
Proof.
  intros H%isspace_range. unfold ascii_lower_cp.
  destruct (N.leb_spec 65 c), (N.leb_spec c 90); simpl; [lia|done..].
Qed.

Lemma ascii_lower_keeps_whitespace : keeps_whitespace ascii_lower.
Proof.
  intros s. unfold whitespace_only, ascii_lower.
  induction 1 as [|c s Hc _ IH]; csimpl; constructor; [|done].
  by rewrite ascii_lower_cp_space.
Qed.

Lemma ascii_lower_agree : ascii_agree ascii_lower.
Proof. by intros s _. Qed.

Lemma _is_owner_config (cfg : Config) (db1 db2 : Database.State)
    (uid : option Z) :
  _is_owner (mkApp cfg db1) uid = _is_owner (mkApp cfg db2) uid.
Proof. reflexivity. Qed.

Lemma _is_owner_absent (self : App) (u : Z) :
  u ∉ owner_ids (_config self) → _is_owner self (Some u) = false.
Proof.
  intros Hu. unfold _is_owner. destruct (u =? 0); [done|].
  apply bool_decide_eq_false. by rewrite elem_of_list_to_set.
Qed.

Lemma is_owner_add_owner (u : Z) (uname : option str) (now : str)
    (db : Database.State) :
  Database.is_owner u (Database.add_owner u uname now db) = true.
Proof.
  unfold Database.is_owner, Database.add_owner.
  destruct (Database.owners db !! u) eqn:E; simpl.
  - by rewrite E.
  - by rewrite lookup_insert_eq.
Qed.

Section Handlers.
Variable py_int : str → option Z.
Variable lower : str → str.

Lemma add_owner_cmd_added (self self' : App) (user : option User)
    (args : list str) (now : str) (n : Z) :
  add_owner_cmd py_int self user args now = (self', OwnerAdded n) →
  _config self' = _config self ∧
  _db self' = Database.add_owner n None now (_db self).
Proof.
  unfold add_owner_cmd. destruct user as [u|]; [|done].
  destruct (negb _); [done|]. destruct args as [|a args]; [done|].
  destruct (py_int a) as [m|]; [|done]. by intros [= <- <-].
Qed.

Lemma max_page_ceil (total : Z) :
  1 ≤ total → is_ceil_div total 50 (Z.max 1 ((total + 50 - 1) / 50)).
Proof.
  intros Ht. unfold is_ceil_div.
  pose proof (Z.div_mod (total + 50 - 1) 50 ltac:(lia)) as Hd.
  pose proof (Z.mod_pos_bound (total + 50 - 1) 50 ltac:(lia)) as Hm.
  lia.
Qed.

Lemma inline_query_whitespace (self : App) (q : str) :
  whitespace_only q → inline_query lower self (Some q) = None.
Proof.
  intros Hq. unfold inline_query. by rewrite strip_whitespace.
Qed.
End Handlers.

End BotFacts.

(** ** The scenarios of the specification, run on the model *)

Module Scenarios.
Import Py Database BotApp Samples.

Example scenario_a_ranking :
  search ascii_lower scenario_a (lit "morning") 10
  = [morning_routine; good_morning].
Proof. reflexivity. Qed.

Example scenario_c_subsequence :
  _score ascii_lower (lit "mrn") (lit "morning") = 40.
Proof. reflexivity. Qed.

Example scenario_d_recent_first :
  search ascii_lower scenario_d (lit "morning") 10
  = [morning_new; morning_old].
Proof. reflexivity. Qed.

Example scenario_e_limit_one :
  search ascii_lower scenario_a (lit "morning") 1 = [morning_routine].
Proof. reflexivity. Qed.

Example case_insensitive :
  _score ascii_lower (lit "Cat") (lit "cathouse")
  = _score ascii_lower (lit "cat") (lit "CatHouse").
Proof. reflexivity. Qed.

Example negative_limit_drops_last :
  search ascii_lower scenario_a (lit "morning") (-1) = [morning_routine].
Proof. reflexivity. Qed.

Example status_third_page :
  status_cmd dec_int big_app (Some owner) [lit "7"]
  = Listing 3 3 120 50 100.
Proof. reflexivity. Qed.

End Scenarios.

(** ** The claims *)

Module Claims.
Import Py Spec PyFacts ScoreFacts SortFacts KeyFacts SearchFacts BotFacts.
Import Database BotApp Samples.

(** C1: for every query and phrase, [_score] is one of 0, 40, 60, 80 and
    100, and it is the value of the first tier that applies to the
    lowercased, trimmed strings: an empty string gives 0, then equality
    100, a prefix 80, an occurrence 60, a subsequence 40, and 0 otherwise.
    The tiers determine the score: it is the only value they allow. *)
Theorem score_first_tier (lower : str → str) (q p : str) :
  _score lower q p ∈ [0; 40; 60; 80; 100] ∧
  ∀ n, tier (normalized lower q) (normalized lower p) n
       ↔ n = _score lower q p.
Proof.
  split; [apply score_values|]. intros n. split.
  - intros Hn. eapply tier_functional; [exact Hn | apply score_tier].
  - intros ->. apply score_tier.
Qed.

(** C2: the result of [search] is ranked: of two returned records the
    earlier one has a score at least as high and, when the scores are
    equal, a [created_at] that is not smaller. *)
Theorem search_ranked (lower : str → str) (db : State) (q : str)
    (limit : Z) :
  let score := λ r, _score lower q (phrase r) in
  StronglySorted (ranked score) (search lower db q limit) ∧
  ∀ (i j : nat) (ri rj : Row),
    (i < j)%nat →
    search lower db q limit !! i = Some ri →
    search lower db q limit !! j = Some rj →
    score rj ≤ score ri ∧
    (score ri = score rj → lex_le (created_at rj) (created_at ri)).
Proof.
  intros score. pose proof (search_sorted lower db q limit) as Hs.
  split; [done|]. intros i j ri rj Hij Hi Hj.
  exact (sorted_lookup _ _ i j ri rj Hs Hij Hi Hj).
Qed.

Lemma search_ranked_witness :
  _score ascii_lower (lit "morning") (phrase morning_old)
    ≤ _score ascii_lower (lit "morning") (phrase morning_new) ∧
  (_score ascii_lower (lit "morning") (phrase morning_new)
     = _score ascii_lower (lit "morning") (phrase morning_old) →
   lex_le (created_at morning_old) (created_at morning_new)).
Proof.
  exact (proj2 (search_ranked ascii_lower scenario_d (lit "morning") 10)
           0%nat 1%nat morning_new morning_old
           ltac:(lia) eq_refl eq_refl).
Defined.

(** C3, as amended: [_score] is 100 exactly when the lowercased, trimmed
    query equals the lowercased, trimmed phrase and is not empty. *)
Theorem score_100_iff_equal_nonempty (lower : str → str) (q p : str) :
  _score lower q p = 100
  ↔ normalized lower q = normalized lower p ∧ normalized lower q ≠ [].
Proof.
  pose proof (score_tier lower q p) as Ht. split.
  - intros H. rewrite H in Ht. inversion Ht; done.
  - intros [Heq Hne]. eapply tier_functional; [exact Ht|].
    apply tier_exact; [done | by rewrite <- Heq | done].
Qed.

(** C3, as stated, fails on the empty query and the empty phrase: the
    normalized strings are equal and the score is 0. *)
Lemma score_100_iff_equal_fails :
  normalized ascii_lower [] = normalized ascii_lower [] ∧
  _score ascii_lower [] [] = 0 ∧
  ¬ (_score ascii_lower [] [] = 100
     ↔ normalized ascii_lower [] = normalized ascii_lower []).
Proof.
  split; [done|]. split; [done|]. intros [_ H].
  specialize (H eq_refl). vm_compute in H. discriminate H.
Qed.

(** C4: when the normalized query and phrase are not empty and the query
    is neither equal to, nor a prefix of, nor inside the phrase, the score
    is 40 exactly when the query is a subsequence of the phrase; and the
    score of "mrn" against "morning" is 40. *)
Theorem subsequence_tier (lower : str → str) :
  (∀ q p,
     normalized lower q ≠ [] → normalized lower p ≠ [] →
     normalized lower q ≠ normalized lower p →
     ¬ normalized lower q `prefix_of` normalized lower p →
     ¬ substring (normalized lower q) (normalized lower p) →
     (_score lower q p = 40
      ↔ normalized lower q `sublist_of` normalized lower p)) ∧
  (ascii_agree lower → _score lower (lit "mrn") (lit "morning") = 40).
Proof.
  split.
  - intros q p Hq Hp Hne Hpre Hin. split.
    + intros H. pose proof (score_tier lower q p) as Ht. rewrite H in Ht.
      inversion Ht; done.
    + intros Hsub.
      apply (tier_functional (normalized lower q) (normalized lower p));
        [apply score_tier | by apply tier_subsequence].
  - intros Hl. unfold _score.
    rewrite (Hl (lit "mrn")), (Hl (lit "morning")); [done|..];
      repeat constructor.
Qed.

Lemma subsequence_tier_witness :
  (_score ascii_lower (lit "mrn") (lit "morning") = 40
   ↔ normalized ascii_lower (lit "mrn")
       `sublist_of` normalized ascii_lower (lit "morning")) ∧
  _score ascii_lower (lit "mrn") (lit "morning") = 40.
Proof.
  split.
  - apply (proj1 (subsequence_tier ascii_lower)).
    + vm_compute. discriminate.
    + vm_compute. discriminate.
    + vm_compute. discriminate.
    + intros H%startswith_prefix. vm_compute in H. discriminate H.
    + intros H%str_in_substring. vm_compute in H. discriminate H.
  - apply (proj2 (subsequence_tier ascii_lower)), ascii_lower_agree.
Defined.

(** C5: every record that [search] returns is one of the stored
    candidates and scores above 0 for the query; a candidate that scores 0
    is not returned. *)
Theorem search_sound (lower : str → str) (db : State) (q : str)
    (limit : Z) :
  (∀ r, r ∈ search lower db q limit →
        r ∈ mappings db ∧ 0 < _score lower q (phrase r)) ∧
  (∀ r, _score lower q (phrase r) = 0 → r ∉ search lower db q limit).
Proof.
  split.
  - intros r. apply search_elem.
  - intros r Hz Hr. apply search_elem in Hr as [_ Hpos]. lia.
Qed.

Lemma search_sound_witness :
  (morning_routine ∈ mappings scenario_a ∧
   0 < _score ascii_lower (lit "morning") (phrase morning_routine)) ∧
  evening ∉ search ascii_lower scenario_a (lit "morning") 10.
Proof.
  split.
  - apply (proj1 (search_sound ascii_lower scenario_a (lit "morning") 10)).
    vm_compute. apply list_elem_of_here.
  - apply (proj2 (search_sound ascii_lower scenario_a (lit "morning") 10)).
    reflexivity.
Defined.

(** C6: for a limit [k ≥ 0] the result of [search] has at most [k]
    records and is a prefix of the result for the limit [k + 1]. *)
Theorem search_truncation (lower : str → str) (db : State) (q : str)
    (k : Z) :
  0 ≤ k →
  Z.of_nat (length (search lower db q k)) ≤ k ∧
  search lower db q k `prefix_of` search lower db q (k + 1).
Proof.
  intros Hk. split; [by apply search_length | by apply search_prefix].
Qed.

Lemma search_truncation_witness :
  Z.of_nat (length (search ascii_lower scenario_a (lit "morning") 1)) ≤ 1 ∧
  search ascii_lower scenario_a (lit "morning") 1
    `prefix_of` search ascii_lower scenario_a (lit "morning") (1 + 1).
Proof.
  apply (search_truncation ascii_lower scenario_a (lit "morning") 1). lia.
Defined.

(** C7: for a query made of whitespace only (the empty query included),
    [search] returns the empty list whatever the store holds and whatever
    the limit, and the inline handler returns without asking the store.
    [str.lower] is assumed to leave whitespace strings whitespace. *)
Theorem search_blank_query (lower : str → str) (q : str) :
  keeps_whitespace lower → whitespace_only q →
  (∀ db limit, search lower db q limit = []) ∧
  (∀ self, inline_query lower self (Some q) = None).
Proof.
  intros Hl Hq. split.
  - intros db limit. by apply search_whitespace.
  - intros self. by apply inline_query_whitespace.
Qed.

Lemma search_blank_query_witness :
  (∀ db limit, search ascii_lower db (lit "  ") limit = []) ∧
  (∀ self, inline_query ascii_lower self (Some (lit "  ")) = None).
Proof.
  apply (search_blank_query ascii_lower (lit "  ")).
  - apply ascii_lower_keeps_whitespace.
  - repeat constructor.
Defined.

(** C8: with at least one mapping stored, [status_cmd] answers a page
    request [n] with the page clamped into [1, ceil(total/50)] (1 below
    the interval, the last page above it, [n] inside) and fetches with
    limit 50 and offset [(page - 1) * 50]. *)
Theorem status_page_clamped (py_int : str → option Z) (self : App)
    (u : User) (a : str) (rest : list str) (n : Z) :
  _is_owner self (Some (user_id u)) = true →
  py_int a = Some n →
  1 ≤ count_mappings (_db self) →
  ∃ page max_page,
    status_cmd py_int self (Some u) (a :: rest)
      = Listing page max_page (count_mappings (_db self)) 50
          ((page - 1) * 50)
    ∧ is_ceil_div (count_mappings (_db self)) 50 max_page
    ∧ 1 ≤ page ≤ max_page
    ∧ (n < 1 → page = 1)
    ∧ (max_page < n → page = max_page)
    ∧ (1 ≤ n ≤ max_page → page = n).
Proof.
  intros Ho Hn Ht. unfold status_cmd. rewrite Ho, Hn. simpl.
  set (total := count_mappings (_db self)) in *.
  destruct (Z.eqb_spec total 0) as [?|_]; [lia|].
  pose proof (max_page_ceil total Ht) as Hc.
  set (max_page := Z.max 1 ((total + 50 - 1) / 50)) in *.
  exists (Z.min (Z.max 1 n) max_page), max_page.
  unfold is_ceil_div in Hc. repeat split; try done; lia.
Qed.

Lemma status_page_clamped_witness :
  ∃ page max_page,
    status_cmd dec_int big_app (Some owner) [lit "7"]
      = Listing page max_page (count_mappings (_db big_app)) 50
          ((page - 1) * 50)
    ∧ is_ceil_div (count_mappings (_db big_app)) 50 max_page
    ∧ 1 ≤ page ≤ max_page
    ∧ (7 < 1 → page = 1)
    ∧ (max_page < 7 → page = max_page)
    ∧ (1 ≤ 7 ≤ max_page → page = 7).
Proof.
  apply (status_page_clamped dec_int big_app owner (lit "7") [] 7).
  - reflexivity.
  - reflexivity.
  - vm_compute. discriminate.
Defined.

(** C9: [_is_owner] reads the configured [owner_ids] and the user id
    only: it gives the same answer over any two stores, and for a user id
    that is not configured it is false in the very state in which
    [add_owner_cmd] has just stored that id as an owner. *)
Theorem is_owner_reads_config_only :
  (∀ cfg db1 db2 uid,
     _is_owner (mkApp cfg db1) uid = _is_owner (mkApp cfg db2) uid) ∧
  (∀ py_int self user args now self' n,
     add_owner_cmd py_int self user args now = (self', OwnerAdded n) →
     n ∉ owner_ids (_config self) →
     Database.is_owner n (_db self') = true ∧
     _is_owner self' (Some n) = false).
Proof.
  split; [apply _is_owner_config|].
  intros py_int self user args now self' n Hcmd Hn.
  apply add_owner_cmd_added in Hcmd as [Hc Hd]. split.
  - rewrite Hd. apply is_owner_add_owner.
  - apply _is_owner_absent. by rewrite Hc.
Qed.

Lemma is_owner_reads_config_only_witness :
  Database.is_owner 2
    (_db (add_owner_cmd dec_int app (Some owner) [lit "2"] (lit "now")).1)
    = true ∧
  _is_owner (add_owner_cmd dec_int app (Some owner) [lit "2"] (lit "now")).1
    (Some 2) = false.
Proof.
  apply (proj2 is_owner_reads_config_only dec_int app (Some owner)
           [lit "2"] (lit "now")).
  - reflexivity.
  - intros H%list_elem_of_singleton. discriminate H.
Defined.

(** C10: a phrase whose normalized form is not empty scores 100 against
    itself, so a stored record queried by its own phrase passes the filter
    of [search] with score 100 and is returned whenever the limit does not
    truncate. *)
Theorem own_phrase_scores_100 (lower : str → str) (p : str) :
  normalized lower p ≠ [] →
  _score lower p p = 100 ∧
  ∀ db r, r ∈ mappings db → phrase r = p →
    (100, r) ∈ collect lower p (mappings db) ∧
    ∀ limit, count_mappings db ≤ limit → r ∈ search lower db p limit.
Proof.
  intros Hp. split; [by apply score_100_iff|].
  intros db r Hr <-.
  pose proof (collect_own_phrase lower db r Hr Hp) as Hin.
  split; [done|]. intros limit Hl. by eapply search_all.
Qed.

Lemma own_phrase_scores_100_witness :
  _score ascii_lower (lit "evening") (lit "evening") = 100 ∧
  (100, evening) ∈ collect ascii_lower (lit "evening") (mappings scenario_a) ∧
  evening ∈ search ascii_lower scenario_a (lit "evening") 10.
Proof.
  destruct (own_phrase_scores_100 ascii_lower (lit "evening")) as [Hs Hr].
  { vm_compute. discriminate. }
  destruct (Hr scenario_a evening) as [Hc Hl].
  { vm_compute. do 2 apply list_elem_of_further. apply list_elem_of_here. }
  { reflexivity. }
  split; [exact Hs|]. split; [exact Hc|].
  apply Hl. vm_compute. discriminate.
Defined.

End Claims.


(** ** [split], [join] and [strip] *)

Module TextFacts.
Import Py PyText Spec SearchFacts.

Lemma split_no_sep (sep : N) (p : str) : sep ∉ p → split sep p = [p].
Proof.
  induction p as [|c p IH]; intros Hp; simpl; [done|].
  apply not_elem_of_cons in Hp as [Hc Hp].
  destruct (N.eqb_spec c sep) as [->|_]; [done|]. by rewrite IH.
Qed.

Lemma split_app_sep (sep : N) (p r : str) :
  sep ∉ p → split sep (p ++ sep :: r) = p :: split sep r.
Proof.
  induction p as [|c p IH]; intros Hp; simpl.
  - by rewrite N.eqb_refl.
  - apply not_elem_of_cons in Hp as [Hc Hp].
    destruct (N.eqb_spec c sep) as [->|_]; [done|]. by rewrite IH.
Qed.

(** Splitting what [join] built gives the pieces back. *)
Lemma split_join (sep : N) (pieces : list str) :
  pieces ≠ [] → Forall (λ p, sep ∉ p) pieces →
  split sep (join [sep] pieces) = pieces.
Proof.
  intros Hne Hall. induction Hall as [|p rest Hp Hrest IH]; [done|].
  destruct rest as [|p' rest].
  - simpl. by apply split_no_sep.
  - change (join [sep] (p :: p' :: rest))
      with (p ++ sep :: join [sep] (p' :: rest)).
    rewrite split_app_sep by done. by rewrite IH.
Qed.

Lemma split_whitespace (sep : N) (s : str) :
  Forall (λ c, c = sep ∨ isspace c = true) s →
  Forall whitespace_only (split sep s).
Proof.
  induction 1 as [|c s Hc _ IH]; simpl.
  - repeat constructor.
  - destruct (N.eqb_spec c sep) as [->|Hne].
    + constructor; [constructor | done].
    + destruct Hc as [?|Hc]; [done|].
      destruct (split sep s) as [|piece pieces]; [repeat constructor; done|].
      apply Forall_cons in IH as [Hp Hps].
      constructor; [by constructor | done].
Qed.

Lemma lstrip_idemp (s : str) : lstrip (lstrip s) = lstrip s.
Proof.
  induction s as [|c s IH]; simpl; [done|].
  destruct (isspace c) eqn:E; [done|]. simpl. by rewrite E.
Qed.

Lemma lstrip_snoc (s : str) (c : N) :
  isspace c = false → lstrip (s ++ [c]) = lstrip s ++ [c].
Proof.
  intros Hc. induction s as [|d s IH]; simpl; [by rewrite Hc|].
  by destruct (isspace d).
Qed.

Lemma rstrip_cons (c : N) (s : str) :
  isspace c = false → rstrip (c :: s) = c :: rstrip s.
Proof.
  intros Hc. unfold rstrip.
  by rewrite reverse_cons, lstrip_snoc, reverse_app by done.
Qed.

Lemma rstrip_idemp (s : str) : rstrip (rstrip s) = rstrip s.
Proof. unfold rstrip. by rewrite reverse_involutive, lstrip_idemp. Qed.

Lemma lstrip_strip (s : str) : lstrip (strip s) = strip s.
Proof.
  unfold strip. destruct s as [|c s]; [done|]. simpl.
  destruct (isspace c) eqn:E.
  - induction s as [|d s IH]; simpl; [done|].
    destruct (isspace d) eqn:E'; [done|].
    rewrite rstrip_cons by done. simpl. by rewrite E'.
  - rewrite rstrip_cons by done. simpl. by rewrite E.
Qed.

(** A stripped string has nothing left to strip. *)
Lemma strip_idemp (s : str) : strip (strip s) = strip s.
Proof.
  unfold strip at 1. rewrite lstrip_strip. unfold strip.
  apply rstrip_idemp.
Qed.

Lemma lstrip_nil_whitespace (s : str) : lstrip s = [] → whitespace_only s.
Proof.
  induction s as [|c s IH]; simpl; [constructor|].
  destruct (isspace c) eqn:E; [|done]. intros H.
  constructor; [exact E | by apply IH].
Qed.

Lemma strip_nil_whitespace (s : str) : strip s = [] ↔ whitespace_only s.
Proof.
  split; [|apply strip_whitespace].
  unfold strip, rstrip. intros H.
  apply (f_equal reverse) in H. rewrite reverse_involutive in H.
  change (reverse []) with (@nil N) in H.
  apply lstrip_nil_whitespace in H.
  assert (whitespace_only (lstrip s)) as Hw.
  { unfold whitespace_only in *. apply Forall_forall. intros c Hc.
    rewrite Forall_forall in H. apply H. by apply elem_of_reverse. }
  apply lstrip_nil_whitespace. rewrite <- lstrip_idemp.
  by apply lstrip_whitespace.
Qed.

End TextFacts.

(** ** [_parse_owner_ids] *)

Module ConfigProps.
Import Py PyText Spec SearchFacts TextFacts AppConfig.

Section Parse.
Variable py_int : str → option Z.

Lemma parse_pieces_omap (pieces : list str) :
  parse_pieces py_int pieces
  = omap (λ piece, if is_empty (strip piece) then None
                   else py_int (strip piece)) pieces.
Proof.
  induction pieces as [|piece rest IH]; simpl; [done|].
  destruct (is_empty (strip piece)); [done|].
  destruct (py_int (strip piece)); by rewrite IH.
Qed.

Lemma parse_pieces_whitespace (pieces : list str) :
  Forall whitespace_only pieces → parse_pieces py_int pieces = [].
Proof.
  induction 1 as [|piece rest Hp _ IH]; simpl; [done|].
  by rewrite strip_whitespace.
Qed.

(** X1: for identifiers written between commas, [_parse_owner_ids] gives
    the integers of the entries, in their order and with their repetitions:
    each entry is stripped, a blank one is skipped and so is one that [int]
    rejects. *)
Theorem parse_owner_ids_joined (pieces : list str) :
  Forall (λ p, comma ∉ p) pieces →
  _parse_owner_ids py_int (join [comma] pieces)
  = omap (λ piece, if is_empty (strip piece) then None
                   else py_int (strip piece)) pieces.
Proof.
  intros Hall. rewrite <- parse_pieces_omap. unfold _parse_owner_ids.
  destruct (is_empty (join [comma] pieces)) eqn:E.
  - destruct pieces as [|p rest]; [done|].
    apply PyFacts.is_empty_true in E.
    destruct rest as [|p' rest].
    + simpl in E. by subst p.
    + change (join [comma] (p :: p' :: rest))
        with (p ++ comma :: join [comma] (p' :: rest)) in E.
      by destruct p.
  - rewrite split_join; [done| |done]. by intros ->.
Qed.

(** X2: a value made of commas and whitespace only (the empty value among
    them) configures no owner. *)
Theorem parse_owner_ids_blank (raw : str) :
  Forall (λ c, c = comma ∨ isspace c = true) raw →
  _parse_owner_ids py_int raw = [].
Proof.
  intros Hraw. unfold _parse_owner_ids. destruct (is_empty raw); [done|].
  by apply parse_pieces_whitespace, split_whitespace.
Qed.

End Parse.

Lemma parse_owner_ids_joined_witness :
  _parse_owner_ids dec_int (join [comma] [lit " 7"; lit ""; lit "x1"; lit "42 "])
  = omap (λ piece, if is_empty (strip piece) then None
                   else dec_int (strip piece))
      [lit " 7"; lit ""; lit "x1"; lit "42 "].
Proof.
  apply (parse_owner_ids_joined dec_int).
  repeat constructor; vm_compute; intros H;
    repeat (apply elem_of_cons in H as [H|H]; [discriminate H|]);
    by apply not_elem_of_nil in H.
Defined.

Lemma parse_owner_ids_blank_witness :
  _parse_owner_ids dec_int (lit " , ,,  ") = [].
Proof.
  apply (parse_owner_ids_blank dec_int).
  let l := eval vm_compute in (lit " , ,,  ") in
  change (lit " , ,,  ") with l.
  repeat (apply List.Forall_cons;
          [first [left; reflexivity | right; reflexivity]|]).
  apply List.Forall_nil.
Defined.

Example parse_owner_ids_sample :
  _parse_owner_ids dec_int (lit " 7,,x1,42 ,-3") = [7; 42; -3].
Proof. reflexivity. Qed.

End ConfigProps.

(** ** The owners table and the mappings table *)

Module StoreProps.
Import Py Spec Database Store Samples Fixtures.

Lemma is_owner_lookup (u : Z) (db : State) :
  is_owner u db = true ↔ is_Some (owners db !! u).
Proof.
  unfold is_owner. destruct (owners db !! u) eqn:E.
  - split; [by intros _; eexists | done].
  - split; [done | by intros [? ?]].
Qed.


Lemma add_owner_mappings (u : Z) (uname : option str) (now : str)
    (db : State) :
  mappings (add_owner u uname now db) = mappings db.
Proof. unfold add_owner. by destruct (owners db !! u). Qed.

Lemma add_owner_subseteq (u : Z) (uname : option str) (now : str)
    (db : State) :
  owners db ⊆ owners (add_owner u uname now db).
Proof.
  unfold add_owner. destruct (owners db !! u) eqn:E; simpl; [done|].
  by apply insert_subseteq.
Qed.

(** X3: [add_owner] keeps the first row of a user: adding a user who is
    already an owner changes nothing, whatever name and time are given, so
    a second [add_owner] for the same user is void. *)
Theorem add_owner_first_wins (u : Z) (n1 n2 : option str) (t1 t2 : str)
    (db : State) :
  (is_owner u db = true → add_owner u n2 t2 db = db) ∧
  add_owner u n2 t2 (add_owner u n1 t1 db) = add_owner u n1 t1 db.
Proof.
  assert (∀ d, is_owner u d = true → add_owner u n2 t2 d = d) as Hkeep.
  { intros d [o Ho]%is_owner_lookup. unfold add_owner. by rewrite Ho. }
  split; [apply Hkeep|]. apply Hkeep, BotFacts.is_owner_add_owner.
Qed.

Lemma add_owner_first_wins_witness :
  add_owner 7 (Some (lit "bob")) stamp
    (add_owner 7 None (lit "2024-01-01T00:00:00") scenario_a)
  = add_owner 7 None (lit "2024-01-01T00:00:00") scenario_a.
Proof.
  exact (proj2 (add_owner_first_wins 7 None (Some (lit "bob"))
                  (lit "2024-01-01T00:00:00") stamp scenario_a)).
Defined.







Lemma foldr_max_ge (l : list Z) (x : Z) : x ∈ l → x ≤ foldr Z.max 0 l.
Proof.
  induction l as [|y l IH]; [by intros ?%not_elem_of_nil|].
  intros [->|Hx]%elem_of_cons; simpl; [lia|]. specialize (IH Hx). lia.
Qed.

Lemma next_rowid_fresh (db : State) (r : Row) :
  r ∈ mappings db → id r < next_rowid db.
Proof.
  intros Hr. unfold next_rowid.
  assert (id r ≤ foldr Z.max 0 (id <$> mappings db)); [|lia].
  by apply foldr_max_ge, list_elem_of_fmap_2.
Qed.

(** X6: [add_mapping] appends one row that holds the given data under the
    returned id; the id is positive and greater than every id of the table,
    so distinct ids stay distinct; the count grows by one and the owners are
    untouched. *)
Theorem add_mapping_appends (p f : str) (ou : option Z) (on : option str)
    (now : str) (db : State) :
  let db' := (add_mapping p f ou on now db).1 in
  let rowid := (add_mapping p f ou on now db).2 in
  mappings db' = mappings db ++ [mkRow rowid p f ou on now] ∧
  0 < rowid ∧
  (∀ r, r ∈ mappings db → id r < rowid) ∧
  (distinct_ids db → distinct_ids db') ∧
  count_mappings db' = count_mappings db + 1 ∧
  owners db' = owners db.
Proof.
  simpl. split; [done|]. split.
  { unfold next_rowid.
    induction (id <$> mappings db) as [|y l IH]; simpl; lia. }
  split; [intros r; apply next_rowid_fresh|].
  split; [|split; [|done]].
  - unfold distinct_ids. simpl. rewrite fmap_app. simpl.
    intros Hd. apply NoDup_app. split; [done|]. split; [|apply NoDup_singleton].
    intros x Hx ->%list_elem_of_singleton.
    apply list_elem_of_fmap in Hx as (r & Hid & Hr).
    apply next_rowid_fresh in Hr. lia.
  - unfold count_mappings. simpl. rewrite length_app. simpl. lia.
Qed.

Lemma add_mapping_appends_witness :
  distinct_ids (add_mapping (lit "hello") (lit "vid42") (Some 1) None stamp
                  scenario_a).1.
Proof.
  apply (add_mapping_appends (lit "hello") (lit "vid42") (Some 1) None stamp
           scenario_a).
  unfold distinct_ids. vm_compute.
  repeat (apply NoDup_cons_2;
          [intros H; repeat (apply elem_of_cons in H as [H|H];
                              [discriminate H|]);
           by apply not_elem_of_nil in H|]).
  apply NoDup_nil_2.
Defined.

Lemma sql_limit_length {A} (limit offset : Z) (l : list A) :
  0 ≤ limit → 0 ≤ offset →
  Z.of_nat (length (sql_limit limit offset l))
  = Z.min limit (Z.max 0 (Z.of_nat (length l) - offset)).
Proof.
  intros Hl Ho. unfold sql_limit.
  destruct (Z.ltb_spec limit 0); [lia|].
  rewrite length_take, length_drop. lia.
Qed.

Lemma sql_limit_sublist {A} (limit offset : Z) (l : list A) :
  sql_limit limit offset l `sublist_of` l.
Proof.
  unfold sql_limit. destruct (limit <? 0).
  - apply sublist_drop.
  - etrans; [apply sublist_take | apply sublist_drop].
Qed.

(** X7: a page of [list_mappings_paginated] with a limit and an offset that
    are not negative holds mappings of the table, the later created first,
    and as many as the table has after the offset, up to the limit. *)
Theorem list_mappings_paginated_page (db : State) (limit offset : Z)
    (page : list Row) :
  0 ≤ limit → 0 ≤ offset →
  list_mappings_paginated db limit offset page →
  Z.of_nat (length page)
    = Z.min limit (Z.max 0 (count_mappings db - offset)) ∧
  (∀ r, r ∈ page → r ∈ mappings db) ∧
  StronglySorted (λ a b, lex_le (created_at b) (created_at a)) page.
Proof.
  intros Hl Ho (sorted & [Hperm Hsorted] & ->). split; [|split].
  - rewrite sql_limit_length by done. unfold count_mappings.
    by rewrite Hperm.
  - intros r Hr. rewrite <- Hperm.
    eapply elem_of_sublist; [exact Hr | apply sql_limit_sublist].
  - eapply SortFacts.StronglySorted_sublist; [apply sql_limit_sublist|done].
Qed.

Lemma list_mappings_paginated_page_witness :
  Z.of_nat (length [morning_routine; good_morning])
    = Z.min 2 (Z.max 0 (count_mappings scenario_a - 1)) ∧
  (∀ r, r ∈ [morning_routine; good_morning] → r ∈ mappings scenario_a) ∧
  StronglySorted (λ a b, lex_le (created_at b) (created_at a))
    [morning_routine; good_morning].
Proof.
  apply (list_mappings_paginated_page scenario_a 2 1); [lia | lia |].
  exists [evening; morning_routine; good_morning]. split; [|reflexivity].
  split.
  - change (mappings scenario_a) with [good_morning; morning_routine; evening].
    rewrite <- reverse_Permutation. reflexivity.
  - repeat (apply SSorted_cons || apply SSorted_nil || apply List.Forall_cons
            || apply List.Forall_nil);
      right; apply PyFacts.str_lt_lex; reflexivity.
Defined.

End StoreProps.

(** ** More on matching and ranking *)

Module SearchProps.
Import Py Spec PyFacts ScoreFacts SortFacts KeyFacts SearchFacts.
Import Database Samples.

Section Stable.
Context {A K : Type} `{!EqDecision K} (key : A → K) (lt : K → K → bool).

Hypothesis lt_irrefl : ∀ a, lt a a = false.



End Stable.



Section Search.
Variable lower : str → str.

Local Abbreviation score := (_score lower).

(** The rows that pass the filter of [search], in the order of the table. *)
Local Abbreviation matching q db :=
  (filter (λ r, 0 < score q (phrase r)) (mappings db)).

Lemma collect_filter (q : str) (rows : list Row) :
  snd <$> collect lower q rows
  = filter (λ r, 0 < score q (phrase r)) rows.
Proof.
  induction rows as [|item rows IH]; simpl; [done|].
  rewrite filter_cons.
  destruct (Z.ltb_spec 0 (score q (phrase item))).
  - rewrite decide_True by done. csimpl. by rewrite IH.
  - rewrite decide_False by lia. done.
Qed.

Lemma sorted_matching (q : str) (db : State) :
  snd <$> sort_reverse sort_key tuple_lt (collect lower q (mappings db))
  ≡ₚ matching q db.
Proof. by rewrite sort_reverse_perm, collect_filter. Qed.

(** X8: a record matches, that is scores above 0, exactly when the
    lowercased, trimmed query is not empty and its characters occur in that
    order in the lowercased, trimmed phrase: the four tiers accept nothing
    that the subsequence tier would refuse. *)
Theorem score_positive_iff_subsequence (q p : str) :
  0 < score q p
  ↔ normalized lower q ≠ [] ∧
    normalized lower q `sublist_of` normalized lower p.
Proof.
  pose proof (score_tier lower q p) as Ht. split.
  - intros Hpos.
    inversion Ht as [He|? ? Heq|? ? ? Hpre|? ? ? ? Hin|? ? ? ? ? Hsub|];
      try lia; (split; [done|]).
    + by rewrite Heq.
    + destruct Hpre as [k ->]. by apply sublist_inserts_r.
    + destruct Hin as (a & b & ->).
      by apply sublist_inserts_l, sublist_inserts_r.
    + done.
  - intros [Hq Hsub].
    assert (normalized lower p ≠ []) as Hp.
    { intros Hp. rewrite Hp in Hsub. by apply sublist_nil_r in Hsub. }
    inversion Ht as [He|? ? Heq|? ? ? Hpre|? ? ? ? Hin|? ? ? ? ? Hs|];
      try lia; [by destruct He | done].
Qed.

(** X9: when the limit is at least the number of stored mappings, [search]
    returns the matching records, each as often as it is stored, and
    nothing else. *)
Theorem search_untruncated (db : State) (q : str) (limit : Z) :
  count_mappings db ≤ limit →
  search lower db q limit ≡ₚ matching q db.
Proof.
  intros Hl. unfold search. rewrite slice_to_all; [apply sorted_matching|].
  rewrite sort_reverse_perm. unfold count_mappings in Hl.
  pose proof (collect_length lower q (mappings db)). lia.
Qed.




End Search.

Lemma score_positive_iff_subsequence_witness :
  0 < _score ascii_lower (lit "MRN ") (lit "Good morning").
Proof.
  apply (score_positive_iff_subsequence ascii_lower). split.
  - vm_compute. discriminate.
  - apply _is_subsequence_sublist. reflexivity.
Defined.

Lemma search_untruncated_witness :
  search ascii_lower scenario_a (lit "morning") 3
  ≡ₚ filter (λ r, 0 < _score ascii_lower (lit "morning") (phrase r))
       (mappings scenario_a).
Proof.
  apply (search_untruncated ascii_lower scenario_a (lit "morning") 3).
  vm_compute. discriminate.
Defined.


End SearchProps.

(** ** More on the handlers *)

Module HandlerProps.
Import Py PyText Spec PyFacts SearchFacts TextFacts BotFacts StoreProps.
Import Database Store BotApp Handlers Samples Fixtures.




Section Commands.
Variable py_int : str → option Z.
Variable lower : str → str.

(** X13: whatever it is given, [add_owner_cmd] leaves the configuration and
    the mappings alone and drops no owner; the state changes only with the
    reply "Owner added", and that reply is given only to a configured owner
    whose first argument [int] accepts. *)
Theorem add_owner_cmd_preserves (self : App) (user : option User)
    (args : list str) (now : str) :
  let res := add_owner_cmd py_int self user args now in
  _config res.1 = _config self ∧
  mappings (_db res.1) = mappings (_db self) ∧
  owners (_db self) ⊆ owners (_db res.1) ∧
  ((∀ n, res.2 ≠ OwnerAdded n) → res.1 = self) ∧
  (∀ n, res.2 = OwnerAdded n →
        ∃ u a rest, user = Some u ∧
          _is_owner self (Some (user_id u)) = true ∧
          args = a :: rest ∧ py_int a = Some n).
Proof.
  unfold add_owner_cmd. destruct user as [u|]; [|by repeat split].
  destruct (_is_owner self (Some (user_id u))) eqn:Ho; simpl;
    [|by repeat split].
  destruct args as [|a rest]; [by repeat split|].
  destruct (py_int a) as [m|] eqn:Hm; [|by repeat split]. simpl.
  split; [done|]. split; [apply add_owner_mappings|].
  split; [apply add_owner_subseteq|]. split.
  - intros Hn. by destruct (Hn m).
  - intros n [= <-]. by exists u, a, rest.
Qed.

Lemma status_cmd_listing_inv (self : App) (user : option User)
    (args : list str) (page max_page total limit offset : Z) :
  status_cmd py_int self user args
    = Listing page max_page total limit offset →
  total = count_mappings (_db self) ∧ 1 ≤ total ∧ limit = 50 ∧
  50 * (max_page - 1) < total ≤ 50 * max_page ∧
  1 ≤ page ≤ max_page ∧ offset = (page - 1) * 50.
Proof.
  unfold status_cmd. destruct user as [u|]; [|done].
  destruct (negb _); [done|].
  set (total' := count_mappings (_db self)).
  assert (0 ≤ total') as Hnn by (unfold total', count_mappings; lia).
  destruct (Z.eqb_spec total' 0) as [?|Hne]; [done|].
  assert (1 ≤ match args with
              | [] => 1
              | a :: _ =>
                  match py_int a with Some n => Z.max 1 n | None => 1 end
              end) as Hreq.
  { destruct args as [|a ?]; [lia|]. destruct (py_int a); lia. }
  intros [= <- <- <- <- <-].
  pose proof (max_page_ceil total' ltac:(lia)) as Hc.
  unfold is_ceil_div in Hc. repeat split; lia.
Qed.

(** X14: for an owner and a table that is not empty, whatever the
    arguments [status_cmd] lists a page whose offset is a row of the table:
    the page shown is never past the end. Without an argument, or with one
    that [int] rejects, it is the first page. *)
Theorem status_offset_in_table (self : App) (u : User) (args : list str) :
  _is_owner self (Some (user_id u)) = true →
  1 ≤ count_mappings (_db self) →
  ∃ page max_page,
    status_cmd py_int self (Some u) args
      = Listing page max_page (count_mappings (_db self)) 50
          ((page - 1) * 50)
    ∧ 0 ≤ (page - 1) * 50 < count_mappings (_db self)
    ∧ ((args = [] ∨ ∃ a rest, args = a :: rest ∧ py_int a = None) →
       page = 1).
Proof.
  intros Ho Ht.
  destruct (status_cmd py_int self (Some u) args) as [| | | | |pg mp t l o]
    eqn:E.
  1-5: unfold status_cmd in E; rewrite Ho in E; simpl in E;
       destruct (Z.eqb_spec (count_mappings (_db self)) 0); [lia|done].
  pose proof (status_cmd_listing_inv _ _ _ _ _ _ _ _ E)
    as (-> & _ & -> & Hmp & Hpg & ->).
  exists pg, mp. split; [done|]. split; [lia|].
  intros Hargs. unfold status_cmd in E. rewrite Ho in E. simpl in E.
  destruct (Z.eqb_spec (count_mappings (_db self)) 0); [lia|].
  assert (match args with
          | [] => 1
          | a :: _ => match py_int a with Some n => Z.max 1 n | None => 1 end
          end = 1) as Hone.
  { destruct Hargs as [->|(a & rest & -> & ->)]; done. }
  rewrite Hone in E. injection E as E _. lia.
Qed.

(** X15: the page that [status_cmd] asks [list_mappings_paginated] for is
    never empty: it holds 50 mappings of the table, or on the last page the
    ones that remain. *)
Theorem status_page_rows (self : App) (user : option User)
    (args : list str) (page max_page total limit offset : Z)
    (items : list Row) :
  status_cmd py_int self user args
    = Listing page max_page total limit offset →
  list_mappings_paginated (_db self) limit offset items →
  1 ≤ Z.of_nat (length items) ≤ 50 ∧
  (page < max_page → Z.of_nat (length items) = 50) ∧
  (page = max_page →
   Z.of_nat (length items) = total - 50 * (max_page - 1)) ∧
  (∀ r, r ∈ items → r ∈ mappings (_db self)).
Proof.
  intros (-> & Ht & -> & Hmp & Hpg & ->)%status_cmd_listing_inv
    (sorted & [Hperm _] & ->).
  assert (Z.of_nat (length sorted) = count_mappings (_db self)) as Hlen.
  { unfold count_mappings. by rewrite Hperm. }
  rewrite sql_limit_length by lia. rewrite Hlen.
  split; [lia|]. split; [lia|]. split; [lia|].
  intros r Hr. rewrite <- Hperm.
  eapply elem_of_sublist; [exact Hr | apply sql_limit_sublist].
Qed.

Lemma remember_cmd_unfold (self : App) (u : User) (args : list str)
    (reply_to_message : option Message) (now : str) :
  _is_owner self (Some (user_id u)) = true →
  remember_cmd self (Some u) args reply_to_message now
  = match args with
    | [] => (self, RememberUsage)
    | _ :: _ =>
        let phrase := strip (join [space] args) in
        if is_empty phrase then (self, RememberEmptyPhrase)
        else
          match reply_to_message with
          | None => (self, RememberNeedsReply)
          | Some replied =>
              match video replied with
              | None => (self, RememberNoVideo)
              | Some file_id =>
                  (mkApp (_config self)
                     (add_mapping phrase file_id (Some (user_id u))
                        (user_name u) now (_db self)).1,
                   Saved phrase)
              end
          end
    end.
Proof. intros Ho. unfold remember_cmd. by rewrite Ho. Qed.

(** X16: [remember_cmd] stores a mapping only with the reply "Saved": then
    the caller is a configured owner, the command replies to a message with
    a video, and one row is appended that holds the video, the caller and
    the phrase, which is the arguments joined by spaces and stripped, is not
    empty and has no whitespace at its ends. With any other reply the state
    is as before; in every case the configuration and the owners are. *)
Theorem remember_cmd_effect (self : App) (user : option User)
    (args : list str) (reply_to_message : option Message) (now : str) :
  let res := remember_cmd self user args reply_to_message now in
  _config res.1 = _config self ∧
  owners (_db res.1) = owners (_db self) ∧
  ((∀ p, res.2 ≠ Saved p) → res.1 = self) ∧
  (∀ p, res.2 = Saved p →
     p = strip (join [space] args) ∧ p ≠ [] ∧ strip p = p ∧
     ∃ u replied fid,
       user = Some u ∧ _is_owner self (Some (user_id u)) = true ∧
       reply_to_message = Some replied ∧ video replied = Some fid ∧
       mappings (_db res.1)
       = mappings (_db self)
         ++ [mkRow (next_rowid (_db self)) p fid (Some (user_id u))
               (user_name u) now]).
Proof.
  destruct user as [u|]; [|by repeat split].
  destruct (_is_owner self (Some (user_id u))) eqn:Ho; cycle 1.
  { unfold remember_cmd. rewrite Ho. by repeat split. }
  rewrite remember_cmd_unfold by done.
  destruct args as [|a rest]; [by repeat split|].
  set (phrase := strip (join [space] (a :: rest))). simpl.
  destruct (is_empty phrase) eqn:Ep; [by repeat split|].
  destruct reply_to_message as [replied|]; [|by repeat split].
  destruct (video replied) as [fid|] eqn:Ev; [|by repeat split].
  simpl. split; [done|]. split; [done|]. split.
  - intros Hn. by destruct (Hn phrase).
  - intros p [= <-]. split; [done|].
    split; [by apply is_empty_false|]. split; [apply strip_idemp|].
    by exists u, replied, fid.
Qed.

Lemma remember_cmd_saved (self self' : App) (user : option User)
    (args : list str) (reply_to_message : option Message) (now p : str) :
  remember_cmd self user args reply_to_message now = (self', Saved p) →
  p ≠ [] ∧ strip p = p ∧
  ∃ u replied fid,
    reply_to_message = Some replied ∧ video replied = Some fid ∧
    mappings (_db self')
    = mappings (_db self)
      ++ [mkRow (next_rowid (_db self)) p fid (Some (user_id u))
            (user_name u) now].
Proof.
  destruct user as [u|]; [|done].
  destruct (_is_owner self (Some (user_id u))) eqn:Ho; cycle 1.
  { unfold remember_cmd. by rewrite Ho. }
  rewrite remember_cmd_unfold by done.
  destruct args as [|a rest]; [done|].
  set (phrase := strip (join [space] (a :: rest))). simpl.
  destruct (is_empty phrase) eqn:Ep; [done|].
  destruct reply_to_message as [replied|]; [|done].
  destruct (video replied) as [fid|] eqn:Ev; [|done].
  intros [= <- <-]. split; [by apply is_empty_false|].
  split; [apply strip_idemp|]. by exists u, replied, fid.
Qed.

Lemma search_nil_no_match (db : State) (q : str) (limit : Z) (r : Row) :
  0 < limit → search lower db q limit = [] → r ∈ mappings db →
  _score lower q (phrase r) ≤ 0.
Proof.
  intros Hl Hs Hr.
  destruct (Z.ltb_spec 0 (_score lower q (phrase r))) as [Hpos|?]; [|done].
  assert ((_score lower q (phrase r), r) ∈ collect lower q (mappings db))
    as Hin by by apply collect_elem.
  rewrite <- (sorted_perm lower q db) in Hin.
  unfold search in Hs. apply fmap_nil_inv in Hs.
  unfold slice_to in Hs. destruct (Z.leb_spec 0 limit); [|lia].
  destruct (sort_reverse _ _ _) as [|t l]; [by apply not_elem_of_nil in Hin|].
  destruct (Z.to_nat limit) eqn:E; [lia|done].
Qed.

(** X17: [inline_query] stays silent exactly on a query of whitespace only
    (or none). Otherwise it answers with 1 to 10 results: either the
    "No matches" article alone, and then no stored phrase matches the
    stripped query, or one video per record of [search] with the limit 10,
    each a stored mapping. *)
Theorem inline_query_answer (self : App) (inline : option str) :
  let query := strip (default [] inline) in
  match inline_query lower self inline with
  | None => whitespace_only (default [] inline)
  | Some results =>
      ¬ whitespace_only (default [] inline) ∧
      1 ≤ Z.of_nat (length results) ≤ 10 ∧
      ((results = [NoMatches query] ∧
        ∀ r, r ∈ mappings (_db self) → _score lower query (phrase r) ≤ 0) ∨
       (results = CachedVideo <$> search lower (_db self) query 10 ∧
        ∀ r, CachedVideo r ∈ results → r ∈ mappings (_db self)))
  end.
Proof.
  intros query. unfold inline_query.
  assert (strip (match inline with Some q => q | None => [] end) = query)
    as -> by by destruct inline.
  destruct (is_empty query) eqn:Eq.
  { apply is_empty_true in Eq. by apply strip_nil_whitespace. }
  apply is_empty_false in Eq.
  assert (¬ whitespace_only (default [] inline)) as Hnw.
  { by intros ?%strip_nil_whitespace. }
  destruct (search lower (_db self) query 10) as [|item items] eqn:Es.
  - split; [done|]. split; [simpl; lia|]. left. split; [done|].
    intros r Hr. by eapply search_nil_no_match; [|exact Es|].
  - split; [done|]. rewrite <- Es. split.
    + rewrite length_fmap.
      pose proof (search_length lower (_db self) query 10 ltac:(lia)).
      rewrite Es in *. simpl in *. lia.
    + right. split; [done|].
      intros r (r' & [= ->] & Hr)%list_elem_of_fmap.
      by apply search_elem in Hr as [? _].
Qed.

(** X18: a phrase that [remember_cmd] has just saved is found by typing it:
    while the store holds at most 10 mappings and lowercasing leaves
    something of the phrase, [inline_query] on the saved phrase answers
    with videos, the saved one among them. *)
Theorem remember_then_inline_query (self self' : App)
    (user : option User) (args : list str) (replied : Message) (fid : str)
    (now p : str) :
  remember_cmd self user args (Some replied) now = (self', Saved p) →
  video replied = Some fid →
  normalized lower p ≠ [] →
  count_mappings (_db self') ≤ 10 →
  ∃ results r,
    inline_query lower self' (Some p) = Some results ∧
    CachedVideo r ∈ results ∧
    phrase r = p ∧ file_id r = fid ∧ created_at r = now.
Proof.
  intros Hcmd Hv Hp Hc.
  destruct (remember_cmd_saved _ _ _ _ _ _ _ Hcmd)
    as (Hne & Hstrip & u & rep & fid' & [= <-] & Hv' & Hmap).
  rewrite Hv in Hv'. injection Hv' as <-.
  set (r := mkRow (next_rowid (_db self)) p fid (Some (user_id u))
              (user_name u) now) in *.
  assert (r ∈ mappings (_db self')) as Hr.
  { rewrite Hmap. apply elem_of_app. right. apply list_elem_of_here. }
  assert (r ∈ search lower (_db self') p 10) as Hin.
  { eapply search_all; [exact Hc|].
    by apply (collect_own_phrase lower (_db self') r). }
  unfold inline_query. rewrite Hstrip.
  destruct (is_empty p) eqn:E; [by apply is_empty_true in E|].
  destruct (search lower (_db self') p 10) as [|item items] eqn:Es;
    [by apply not_elem_of_nil in Hin|].
  eexists _, r. split; [reflexivity|].
  split; [by apply list_elem_of_fmap_2|done].
Qed.

End Commands.

Lemma status_offset_in_table_witness :
  ∃ page max_page,
    status_cmd dec_int big_app (Some owner) [lit "last"]
      = Listing page max_page (count_mappings (_db big_app)) 50
          ((page - 1) * 50)
    ∧ 0 ≤ (page - 1) * 50 < count_mappings (_db big_app)
    ∧ (([lit "last"] = [] ∨
        ∃ a rest, [lit "last"] = a :: rest ∧ dec_int a = None) →
       page = 1).
Proof.
  apply (status_offset_in_table dec_int big_app owner [lit "last"]).
  - reflexivity.
  - vm_compute. discriminate.
Defined.

Lemma status_page_rows_witness :
  1 ≤ Z.of_nat (length [evening; morning_routine; good_morning]) ≤ 50 ∧
  (1 < 1 →
   Z.of_nat (length [evening; morning_routine; good_morning]) = 50) ∧
  (1 = 1 →
   Z.of_nat (length [evening; morning_routine; good_morning])
   = 3 - 50 * (1 - 1)) ∧
  (∀ r, r ∈ [evening; morning_routine; good_morning] →
        r ∈ mappings (_db app)).
Proof.
  apply (status_page_rows dec_int app (Some owner) [] 1 1 3 50 0).
  - reflexivity.
  - exists [evening; morning_routine; good_morning]. split; [|reflexivity].
    split.
    + change (mappings (_db app))
        with [good_morning; morning_routine; evening].
      rewrite <- reverse_Permutation. reflexivity.
    + repeat (apply SSorted_cons || apply SSorted_nil
              || apply List.Forall_cons || apply List.Forall_nil);
        right; apply str_lt_lex; reflexivity.
Defined.

Lemma remember_then_inline_query_witness :
  ∃ results r,
    inline_query ascii_lower
      (remember_cmd app (Some owner) [lit "Hello"; lit "World"] (Some clip)
         stamp).1
      (Some (lit "Hello World")) = Some results ∧
    CachedVideo r ∈ results ∧
    phrase r = lit "Hello World" ∧ file_id r = lit "vid42" ∧
    created_at r = stamp.
Proof.
  apply (remember_then_inline_query ascii_lower app _ (Some owner)
           [lit "Hello"; lit "World"] clip (lit "vid42") stamp
           (lit "Hello World")).
  - reflexivity.
  - reflexivity.
  - vm_compute. discriminate.
  - vm_compute. discriminate.
Defined.

Example remember_sample :
  (remember_cmd app (Some owner) [lit "Hello"; lit "World"] (Some clip)
     stamp).2
  = Saved (lit "Hello World").
Proof. reflexivity. Qed.

Example remember_needs_video :
  remember_cmd app (Some owner) [lit "Hello"]
    (Some (mkMessage None)) stamp
  = (app, RememberNoVideo).
Proof. reflexivity. Qed.

End HandlerProps.
